(** * The RV64-PPAC build driver (tvm/src/codegen/ppac/build_rv64_ppac.cc)

    [BuildRV64PPAC] lowers an array of functions to kernel text.  It owns one
    [CodeAnalysis] and one [CodeGenRV64PPAC] object, feeds every function to
    both, asks the generator for the accumulated text, logs a warning and
    returns the text.

    The driver is embedded as a small program over the five operations it
    performs (four member calls and one log statement).  The two collaborator
    classes are declared in headers that are not part of this file, so the
    driver is stated over their interfaces; instances written after the
    textual contract of the collaborators are given further down. *)

From stdpp Require Import base list strings gmap.

(** ** Failures and outcomes *)

(** Modelled from the spec: the failure taxonomy of the collaborators (the
    exception types thrown by [CodeAnalysis] and [CodeGenRV64PPAC] are not
    declared in this file).  A failure has a kind and a message. *)
Inductive failure_kind : Type :=
| InconsistentArgumentType
| UnsupportedConstruct.

Record failure : Type := Failure {
  kind : failure_kind;
  message : string
}.

(** A C++ call either returns a value or throws. *)
Inductive outcome (A : Type) : Type :=
| Returned (a : A)
| Raised (e : failure).
Arguments Returned {A} a.
Arguments Raised {A} e.

Definition is_returned {A} (o : outcome A) : bool :=
  match o with Returned _ => true | Raised _ => false end.

(** ** Collaborator interfaces *)

(** [CodeAnalysis] (declared in ../code_analysis.h): a default constructor and
    the two member functions the driver calls.  Both may throw and both may
    change the object. *)
Class CodeAnalysis (LoweredFunc TypeMap : Type) : Type := {
  ca_state : Type;
  ca_new : ca_state;
  ca_AddFunction : LoweredFunc → ca_state → outcome ca_state;
  ca_Finish : ca_state → outcome (TypeMap * ca_state)
}.

(** [CodeGenRV64PPAC] (declared in ./codegen_rv64_ppac.h). *)
Class CodeGenRV64PPAC (LoweredFunc TypeMap : Type) : Type := {
  cg_state : Type;
  cg_new : cg_state;
  cg_AddFunction : LoweredFunc → TypeMap → cg_state → outcome cg_state;
  cg_Finish : cg_state → outcome (string * cg_state)
}.

(** ** Programs over the driver's operations *)

Section Driver.
Context {LoweredFunc TypeMap : Type}.

(** The operations that occur in the body of [BuildRV64PPAC]. *)
Inductive cmd : Type → Type :=
| CaAddFunction (f : LoweredFunc) : cmd unit
| CaFinish : cmd TypeMap
| CgAddFunction (f : LoweredFunc) (m : TypeMap) : cmd unit
| CgFinish : cmd string
| LogWarning (msg : string) : cmd unit.

(** Finite sequences of operations, each continued with its result. *)
Inductive prog (A : Type) : Type :=
| Ret (a : A)
| Do {X : Type} (c : cmd X) (k : X → prog A).
Arguments Ret {A} a.
Arguments Do {A X} c k.

Fixpoint bind {A B} (p : prog A) (k : A → prog B) : prog B :=
  match p with
  | Ret a => k a
  | Do c k' => Do c (λ x, bind (k' x) k)
  end.

Definition call {X} (c : cmd X) : prog X := Do c Ret.

(** The range-based [for] over the array, in order. *)
Fixpoint for_each (fs : list LoweredFunc) (body : LoweredFunc → prog unit)
  : prog unit :=
  match fs with
  | [] => Ret tt
  | f :: fs' => bind (body f) (λ _, for_each fs' body)
  end.

Global Instance prog_ret : MRet prog := λ A, Ret.
Global Instance prog_bind : MBind prog := λ A B k p, bind p k.

(** The message of the [LOG(WARNING)] statement at line 24. *)
Definition warning : string :=
  "RV64_PPAC backend doesn't have runtime, return kernel code".

(** Lines 17-20, the body of the loop. The declaration of [map_arg_type] at
    line 18 default constructs a map that line 19 overwrites before any use. *)
Definition per_function (f : LoweredFunc) : prog unit :=
  call (CaAddFunction f);;
  map_arg_type ← call CaFinish;
  call (CgAddFunction f map_arg_type).

(** Lines 16-25. *)
Definition body (funcs : list LoweredFunc) : prog string :=
  for_each funcs per_function;;
  code ← call CgFinish;
  call (LogWarning warning);;
  mret code.

(** ** Execution *)

(** What an observer of one run sees: each operation with its outcome. *)
Inductive event : Type :=
| EvCaAddFunction (f : LoweredFunc) (r : outcome unit)
| EvCaFinish (r : outcome TypeMap)
| EvCgAddFunction (f : LoweredFunc) (m : TypeMap) (r : outcome unit)
| EvCgFinish (r : outcome string)
| EvLogWarning (msg : string).

Definition observe {X} (c : cmd X) : outcome X → event :=
  match c in cmd X return outcome X → event with
  | CaAddFunction f => EvCaAddFunction f
  | CaFinish => EvCaFinish
  | CgAddFunction f m => EvCgAddFunction f m
  | CgFinish => EvCgFinish
  | LogWarning msg => λ _, EvLogWarning msg
  end.

Context `{!CodeAnalysis LoweredFunc TypeMap, !CodeGenRV64PPAC LoweredFunc TypeMap}.

(** The two local objects of one call, and the diagnostic channel the log
    statement writes to (the messages logged so far, oldest first). *)
Record frame : Type := Frame {
  ca : ca_state;
  cg : cg_state;
  diag : list string
}.

(** One operation on a frame. A throwing member call leaves the frame as it
    was: the objects are destroyed by the unwinding and never looked at
    again. *)
Definition handle {X} (c : cmd X) (w : frame) : frame * outcome X :=
  match c in cmd X return frame * outcome X with
  | CaAddFunction f =>
      match ca_AddFunction f (ca w) with
      | Returned s => (Frame s (cg w) (diag w), Returned tt)
      | Raised e => (w, Raised e)
      end
  | CaFinish =>
      match ca_Finish (ca w) with
      | Returned (m, s) => (Frame s (cg w) (diag w), Returned m)
      | Raised e => (w, Raised e)
      end
  | CgAddFunction f m =>
      match cg_AddFunction f m (cg w) with
      | Returned g => (Frame (ca w) g (diag w), Returned tt)
      | Raised e => (w, Raised e)
      end
  | CgFinish =>
      match cg_Finish (cg w) with
      | Returned (code, g) => (Frame (ca w) g (diag w), Returned code)
      | Raised e => (w, Raised e)
      end
  | LogWarning msg =>
      (Frame (ca w) (cg w) (diag w ++ [msg]), Returned tt)
  end.

Record result (A : Type) : Type := Result {
  trace : list event;
  final : frame;
  out : outcome A
}.
Arguments Result {A} trace final out.
Arguments trace {A} r.
Arguments final {A} r.
Arguments out {A} r.

(** Running a program: operations in sequence; the first one that throws
    ends the run with its failure (the source has no [try] block). *)
Fixpoint run {A} (p : prog A) (w : frame) : result A :=
  match p with
  | Ret a => Result [] w (Returned a)
  | Do c k =>
      match handle c w with
      | (w', Raised e) => Result [observe c (Raised e)] w' (Raised e)
      | (w', Returned x) =>
          let r := run (k x) w' in
          Result (observe c (Returned x) :: trace r) (final r) (out r)
      end
  end.

(** Lines 13-26: one call of the driver, given the state of the diagnostic
    channel when it starts. [ca] and [cg] are default constructed. *)
Definition BuildRV64PPAC (funcs : list LoweredFunc) (d : list string)
  : result string :=
  run (body funcs) (Frame ca_new cg_new d).

End Driver.

Arguments Ret {LoweredFunc TypeMap A} a.
Arguments Do {LoweredFunc TypeMap A X} c k.
Arguments Result {LoweredFunc TypeMap _ _ A} trace final out.
Arguments trace {LoweredFunc TypeMap _ _ A} r.
Arguments final {LoweredFunc TypeMap _ _ A} r.
Arguments out {LoweredFunc TypeMap _ _ A} r.

(** ** Reading a trace *)

Section Traces.
Context {LoweredFunc TypeMap : Type}.
Implicit Types (t : list (@event LoweredFunc TypeMap)).

(** The failure an operation ended with, if it threw. *)
Definition raised (ev : @event LoweredFunc TypeMap) : option failure :=
  match ev with
  | EvCaAddFunction _ (Raised e) | EvCaFinish (Raised e)
  | EvCgAddFunction _ _ (Raised e) | EvCgFinish (Raised e) => Some e
  | _ => None
  end.

Definition is_CaAddFunction (ev : @event LoweredFunc TypeMap) : bool :=
  match ev with EvCaAddFunction _ _ => true | _ => false end.
Definition is_CaFinish (ev : @event LoweredFunc TypeMap) : bool :=
  match ev with EvCaFinish _ => true | _ => false end.
Definition is_CgAddFunction (ev : @event LoweredFunc TypeMap) : bool :=
  match ev with EvCgAddFunction _ _ _ => true | _ => false end.
Definition is_CgFinish (ev : @event LoweredFunc TypeMap) : bool :=
  match ev with EvCgFinish _ => true | _ => false end.
Definition is_LogWarning (ev : @event LoweredFunc TypeMap) : bool :=
  match ev with EvLogWarning _ => true | _ => false end.

(** How many events of a trace satisfy a test. *)
Fixpoint count (P : @event LoweredFunc TypeMap → bool) t : nat :=
  match t with
  | [] => 0
  | ev :: t' => (if P ev then 1 else 0) + count P t'
  end.

(** The messages a run wrote to the diagnostic channel. *)
Fixpoint logged t : list string :=
  match t with
  | [] => []
  | EvLogWarning msg :: t' => msg :: logged t'
  | _ :: t' => logged t'
  end.

(** The functions of the successive [ca.AddFunction] calls. *)
Fixpoint ca_inputs t : list LoweredFunc :=
  match t with
  | [] => []
  | EvCaAddFunction f _ :: t' => f :: ca_inputs t'
  | _ :: t' => ca_inputs t'
  end.

(** Is the event one of the three member calls of the loop body? *)
Definition in_loop (ev : @event LoweredFunc TypeMap) : bool :=
  is_CaAddFunction ev || is_CaFinish ev || is_CgAddFunction ev.

(** The arguments of the successive [cg.AddFunction] calls. *)
Fixpoint cg_inputs t : list (LoweredFunc * TypeMap) :=
  match t with
  | [] => []
  | EvCgAddFunction f m _ :: t' => (f, m) :: cg_inputs t'
  | _ :: t' => cg_inputs t'
  end.

(** The three events of one loop iteration that ran to its end. *)
Definition iteration (f : LoweredFunc) (m : TypeMap)
  : list (@event LoweredFunc TypeMap) :=
  [EvCaAddFunction f (Returned tt); EvCaFinish (Returned m);
   EvCgAddFunction f m (Returned tt)].

Fixpoint iterations (fs : list LoweredFunc) (ms : list TypeMap)
  : list (@event LoweredFunc TypeMap) :=
  match fs, ms with
  | f :: fs', m :: ms' => iteration f m ++ iterations fs' ms'
  | _, _ => []
  end.

(** The analyzer taken alone: register and finalize the functions of [fs] one
    after the other, starting from object state [s], and collect the maps
    [Finish] returns up to the first failure. No generator is involved. *)
Fixpoint snapshots `{!CodeAnalysis LoweredFunc TypeMap}
    (fs : list LoweredFunc) (s : ca_state) : list TypeMap :=
  match fs with
  | [] => []
  | f :: fs' =>
      match ca_AddFunction f s with
      | Raised _ => []
      | Returned s1 =>
          match ca_Finish s1 with
          | Raised _ => []
          | Returned (m, s2) => m :: snapshots fs' s2
          end
      end
  end.

(** The generator taken alone: add the given functions, each with the map
    given for it, to a generator in state [g]. *)
Fixpoint cg_feed `{!CodeGenRV64PPAC LoweredFunc TypeMap}
    (fms : list (LoweredFunc * TypeMap)) (g : cg_state) : outcome cg_state :=
  match fms with
  | [] => Returned g
  | (f, m) :: fms' =>
      match cg_AddFunction f m g with
      | Raised e => Raised e
      | Returned g' => cg_feed fms' g'
      end
  end.

End Traces.

(** ** Text *)

(** Concatenation of pieces of text, first piece first. *)
Fixpoint flatten (ts : list string) : string :=
  match ts with
  | [] => ""
  | t :: ts' => t +:+ flatten ts'
  end.

(** The index in [flatten ts] at which piece [i] starts. *)
Definition offset (ts : list string) (i : nat) : nat :=
  String.length (flatten (take i ts)).

(** ** The collaborators after their documented contract *)

Section Contract.
Context {LoweredFunc Ty : Type} `{EqDecision Ty}.

(** Modelled from the spec: what the Argument Type Analyzer extracts from a
    function, namely the argument identities it references with their types
    (the lowered function type is declared outside this file). *)
Context (arg_usages : LoweredFunc → list (string * Ty)).

(** Modelled from the spec: registering one usage in the Argument Type Map.
    A new identity gets an entry; an identity seen before with the same type
    keeps its entry; one seen before with another type is the failure of kind
    inconsistent argument type. No entry is ever removed. *)
Definition register (m : gmap string Ty) (u : string * Ty)
  : outcome (gmap string Ty) :=
  match m !! u.1 with
  | None => Returned (<[u.1 := u.2]> m)
  | Some ty =>
      if decide (ty = u.2) then Returned m
      else Raised (Failure InconsistentArgumentType u.1)
  end.

Fixpoint register_all (us : list (string * Ty)) (m : gmap string Ty)
  : outcome (gmap string Ty) :=
  match us with
  | [] => Returned m
  | u :: us' =>
      match register m u with
      | Returned m' => register_all us' m'
      | Raised e => Raised e
      end
  end.

(** Modelled from the spec: the Argument Type Analyzer ([CodeAnalysis] is
    defined outside this file). Its state is the map built so far, empty at
    construction; [AddFunction] registers the usages of one function;
    [Finish] returns the current map and changes nothing. *)
Definition contract_analyzer : CodeAnalysis LoweredFunc (gmap string Ty) := {|
  ca_state := gmap string Ty;
  ca_new := ∅;
  ca_AddFunction f s := register_all (arg_usages f) s;
  ca_Finish s := Returned (s, s)
|}.

(** Modelled from the spec: the translation of one function under a type
    mapping (the target language of [CodeGenRV64PPAC] is defined outside this
    file): the text, or the description of a construct that has no
    translation. *)
Context {TypeMap : Type} (translate : LoweredFunc → TypeMap → string + string).

(** Modelled from the spec: the Code Generator ([CodeGenRV64PPAC] is defined
    outside this file). Its state is the text accumulated since its creation;
    [AddFunction] appends the translation of one function or fails with kind
    unsupported construct; [Finish] returns the accumulated text. *)
Definition contract_generator : CodeGenRV64PPAC LoweredFunc TypeMap := {|
  cg_state := string;
  cg_new := "";
  cg_AddFunction f m buf :=
    match translate f m with
    | inl t => Returned (buf +:+ t)
    | inr what => Raised (Failure UnsupportedConstruct what)
    end;
  cg_Finish buf := Returned (buf, buf)
|}.

End Contract.

(** ** A small compilation unit *)

Module Unit.

Inductive dtype : Type := Int32 | Float32.

Global Instance dtype_eq_dec : EqDecision dtype.
Proof. solve_decision. Defined.

(** A function: its name, its arguments with their types, and its body,
    either already in target syntax or a construct the target lacks. *)
Record func : Type := Func {
  name : string;
  args : list (string * dtype);
  stmts : string + string
}.

Definition show (o : option dtype) : string :=
  match o with
  | Some Int32 => "int32_t* "
  | Some Float32 => "float* "
  | None => "void* "
  end.

Fixpoint params (m : gmap string dtype) (xs : list (string * dtype)) : string :=
  match xs with
  | [] => ""
  | x :: xs' => show (m !! x.1) +:+ x.1 +:+ ";" +:+ params m xs'
  end.

Definition translate (f : func) (m : gmap string dtype) : string + string :=
  match stmts f with
  | inl text => inl (name f +:+ "(" +:+ params m (args f) +:+ "){" +:+ text +:+ "}")
  | inr what => inr what
  end.

Definition analyzer : CodeAnalysis func (gmap string dtype) :=
  contract_analyzer args.
Definition generator : CodeGenRV64PPAC func (gmap string dtype) :=
  contract_generator translate.

Definition build (funcs : list func) (d : list string) :=
  @BuildRV64PPAC func (gmap string dtype) analyzer generator funcs d.

Definition load : func := Func "load" [("A", Int32)] (inl "ld A").
Definition axpy : func :=
  Func "axpy" [("A", Int32); ("B", Float32)] (inl "mac A B").
Definition cast : func := Func "cast" [("A", Float32)] (inl "cvt A").
Definition nop : func := Func "nop" [] (inl "").
Definition fence : func := Func "fence" [] (inr "Fence").

(** Two functions that agree on the type of the shared argument [A], and two
    that do not. *)
Definition agreeing : list func := [load; axpy].
Definition clashing : list func := [load; cast].

Definition map_A : gmap string dtype := {["A" := Int32]}.
Definition map_AB : gmap string dtype := <["B" := Float32]> map_A.

End Unit.

(** ** The registered entry point *)

Section Registration.
Context {LoweredFunc TypeMap : Type}.
Context `{!CodeAnalysis LoweredFunc TypeMap, !CodeGenRV64PPAC LoweredFunc TypeMap}.

(** The packed-call types are declared by the runtime, outside this file:
    the argument pack, the return slot, the reading of argument [i] as an
    array of lowered functions ([None] when indexing or conversion throws),
    and the slot content that holds a string. *)
Context {TVMArgs TVMRetValue : Type}.
Context (arg_as_funcs : TVMArgs → nat → option (list LoweredFunc)).
Context (ret_string : string → TVMRetValue).

(** How a call of the registered body ends. *)
Inductive api_outcome : Type :=
| ApiReturned
| ApiBadArgument
| ApiRaised (e : failure).

Record api_result : Type := ApiResult {
  api_rv : TVMRetValue;
  api_trace : list (@event LoweredFunc TypeMap);
  api_diag : list string;
  api_out : api_outcome
}.

(** Lines 29-31, the body registered under [codegen.build_rv64_ppac]:
    [*rv = BuildRV64PPAC(args[0])]. The argument is read first, the driver
    runs next, and the slot is assigned last, so only when both returned. *)
Definition build_rv64_ppac (args : TVMArgs) (rv : TVMRetValue)
    (d : list string) : api_result :=
  match arg_as_funcs args 0 with
  | None => ApiResult rv [] d ApiBadArgument
  | Some funcs =>
      let r := BuildRV64PPAC funcs d in
      match out r with
      | Returned code =>
          ApiResult (ret_string code) (trace r) (diag (final r)) ApiReturned
      | Raised e => ApiResult rv (trace r) (diag (final r)) (ApiRaised e)
      end
  end.

End Registration.

(** * Properties of the driver *)

(** ** Running programs *)

Section RunFacts.
Context {LoweredFunc TypeMap : Type}.
Context `{!CodeAnalysis LoweredFunc TypeMap, !CodeGenRV64PPAC LoweredFunc TypeMap}.
Implicit Types (w : @frame LoweredFunc TypeMap _ _).

(** Sequencing: the second program runs in the frame the first one left,
    unless the first one threw. *)
Lemma run_bind {A B} (p : prog A) (k : A → prog B) w :
  run (bind p k) w =
  match out (run p w) with
  | Returned a =>
      let r := run (k a) (final (run p w)) in
      Result (trace (run p w) ++ trace r) (final r) (out r)
  | Raised e => Result (trace (run p w)) (final (run p w)) (Raised e)
  end.
Proof.
  revert w. induction p as [a | X c k' IH]; intros w; cbn.
  - by destruct (run (k a) w).
  - destruct (handle c w) as [w' [x | e]]; cbn; [| done].
    rewrite IH. by destruct (out (run (k' x) w')).
Qed.

(** An operation that throws is the last event of the run, and its failure
    is the outcome of the run. *)
Lemma run_raised {A} (p : prog A) w pre ev post e :
  trace (run p w) = pre ++ ev :: post →
  raised ev = Some e →
  post = [] ∧ out (run p w) = Raised e.
Proof.
  revert w pre. induction p as [a | X c k IH]; intros w pre Ht Hev; cbn in *.
  - by destruct pre.
  - destruct (handle c w) as [w' [x | e']]; cbn in *.
    + destruct pre as [| ev' pre]; cbn in *.
      * injection Ht as <- _. by destruct c.
      * injection Ht as _ Ht. eauto.
    + destruct pre as [| ev' [| ? ?]]; try done.
      injection Ht as <- <-. split; [done |].
      destruct c; cbn in Hev; congruence.
Qed.

(** Conversely a run that fails ends with the operation that threw. *)
Lemma run_failed {A} (p : prog A) w e :
  out (run p w) = Raised e →
  ∃ pre ev, trace (run p w) = pre ++ [ev] ∧ raised ev = Some e.
Proof.
  revert w. induction p as [a | X c k IH]; intros w Ho; cbn in *; [done |].
  destruct (handle c w) as [w' [x | e']] eqn:Hc; cbn in *.
  - destruct (IH _ _ Ho) as (pre & ev & -> & Hev).
    by exists (observe c (Returned x) :: pre), ev.
  - injection Ho as ->. exists [], (observe c (Raised e)).
    split; [done |]. by destruct c.
Qed.

(** The diagnostic channel only grows, by the messages of the log events. *)
Lemma run_diag {A} (p : prog A) w :
  diag (final (run p w)) = diag w ++ logged (trace (run p w)).
Proof.
  revert w. induction p as [a | X c k IH]; intros w; cbn.
  - by rewrite app_nil_r.
  - destruct c; cbn.
    + destruct (ca_AddFunction f (ca w)); cbn; [by rewrite IH | by rewrite app_nil_r].
    + destruct (ca_Finish (ca w)) as [[m s] |]; cbn; [by rewrite IH | by rewrite app_nil_r].
    + destruct (cg_AddFunction f m (cg w)); cbn; [by rewrite IH | by rewrite app_nil_r].
    + destruct (cg_Finish (cg w)) as [[code g] |]; cbn; [by rewrite IH | by rewrite app_nil_r].
    + rewrite IH. cbn. by rewrite <- app_assoc.
Qed.

(** What is on the diagnostic channel has no effect on a run. *)
Lemma run_diag_irrelevant {A} (p : prog A) s g d d' :
  trace (run p (Frame s g d')) = trace (run p (Frame s g d)) ∧
  out (run p (Frame s g d')) = out (run p (Frame s g d)) ∧
  ca (final (run p (Frame s g d'))) = ca (final (run p (Frame s g d))) ∧
  cg (final (run p (Frame s g d'))) = cg (final (run p (Frame s g d))).
Proof.
  revert s g d d'. induction p as [a | X c k IH]; intros s g d d'; cbn; [done |].
  destruct c; cbn.
  - destruct (ca_AddFunction f s) as [s' |]; cbn; [| done].
    by destruct (IH tt s' g d d') as (-> & ? & ? & ?).
  - destruct (ca_Finish s) as [[m s'] |]; cbn; [| done].
    by destruct (IH m s' g d d') as (-> & ? & ? & ?).
  - destruct (cg_AddFunction f m g) as [g' |]; cbn; [| done].
    by destruct (IH tt s g' d d') as (-> & ? & ? & ?).
  - destruct (cg_Finish g) as [[code g'] |]; cbn; [| done].
    by destruct (IH code s g' d d') as (-> & ? & ? & ?).
  - by destruct (IH tt s g (d ++ [msg]) (d' ++ [msg])) as (-> & ? & ? & ?).
Qed.

End RunFacts.

(** ** The loop *)

Section LoopFacts.
Context {LoweredFunc TypeMap : Type}.
Context `{!CodeAnalysis LoweredFunc TypeMap, !CodeGenRV64PPAC LoweredFunc TypeMap}.
Implicit Types (w : @frame LoweredFunc TypeMap _ _) (fs : list LoweredFunc).

Lemma count_app (P : @event LoweredFunc TypeMap → bool) t1 t2 :
  count P (t1 ++ t2) = count P t1 + count P t2.
Proof. induction t1 as [| ev t1 IH]; cbn; [done |]. rewrite IH. lia. Qed.

Lemma cg_inputs_app (t1 t2 : list (@event LoweredFunc TypeMap)) :
  cg_inputs (t1 ++ t2) = cg_inputs t1 ++ cg_inputs t2.
Proof.
  induction t1 as [| ev t1 IH]; cbn; [done |].
  destruct ev; cbn; by rewrite ?IH.
Qed.

(** One iteration of the loop, unfolded. *)
Lemma loop_cons f fs w :
  run (for_each (f :: fs) per_function) w =
  match ca_AddFunction f (ca w) with
  | Raised e => Result [EvCaAddFunction f (Raised e)] w (Raised e)
  | Returned s1 =>
      match ca_Finish s1 with
      | Raised e =>
          Result [EvCaAddFunction f (Returned tt); EvCaFinish (Raised e)]
            (Frame s1 (cg w) (diag w)) (Raised e)
      | Returned (m, s2) =>
          match cg_AddFunction f m (cg w) with
          | Raised e =>
              Result [EvCaAddFunction f (Returned tt); EvCaFinish (Returned m);
                      EvCgAddFunction f m (Raised e)]
                (Frame s2 (cg w) (diag w)) (Raised e)
          | Returned g =>
              let r := run (for_each fs per_function) (Frame s2 g (diag w)) in
              Result (iteration f m ++ trace r) (final r) (out r)
          end
      end
  end.
Proof.
  cbn. destruct (ca_AddFunction f (ca w)) as [s1 |]; cbn; [| done].
  destruct (ca_Finish s1) as [[m s2] |]; cbn; [| done].
  by destruct (cg_AddFunction f m (cg w)) as [g |]; cbn.
Qed.

(** The loop calls neither [cg.Finish] nor the logger. *)
Lemma loop_quiet fs w :
  let t := trace (run (for_each fs per_function) w) in
  logged t = [] ∧ count is_CgFinish t = 0 ∧ count is_LogWarning t = 0.
Proof.
  revert w. induction fs as [| f fs IH]; intros w; [done |].
  rewrite loop_cons.
  destruct (ca_AddFunction f (ca w)) as [s1 |]; [| done].
  destruct (ca_Finish s1) as [[m s2] |]; [| done].
  destruct (cg_AddFunction f m (cg w)) as [g |]; [| done].
  apply (IH (Frame s2 g (diag w))).
Qed.

(** A loop that runs to its end made one full iteration per function, each
    with the analyzer's snapshot for it, and fed the generator accordingly. *)
Lemma loop_returned fs w :
  let r := run (for_each fs per_function) w in
  let ms := snapshots fs (ca w) in
  out r = Returned tt →
  trace r = iterations fs ms ∧ length ms = length fs ∧
  cg_feed (zip fs ms) (cg w) = Returned (cg (final r)).
Proof.
  revert w. induction fs as [| f fs IH]; intros w; [done |].
  cbn zeta. rewrite loop_cons. cbn [snapshots].
  destruct (ca_AddFunction f (ca w)) as [s1 |]; [| done].
  destruct (ca_Finish s1) as [[m s2] |]; [| done].
  cbn [zip zip_with cg_feed].
  destruct (cg_AddFunction f m (cg w)) as [g |]; [| done].
  cbn. intros Ho.
  destruct (IH (Frame s2 g (diag w)) Ho) as (Ht & Hl & Hg). cbn in Ht, Hl, Hg.
  by rewrite Ht, Hl, Hg.
Qed.

(** Whatever the outcome, the [i]-th call of [cg.AddFunction] receives the
    [i]-th function and the [i]-th snapshot of the analyzer, right after the
    calls that registered the function and took the snapshot. *)
Lemma loop_cg_inputs fs w i f m :
  cg_inputs (trace (run (for_each fs per_function) w)) !! i = Some (f, m) →
  fs !! i = Some f ∧ snapshots fs (ca w) !! i = Some m ∧
  ∃ pre r post,
    trace (run (for_each fs per_function) w) =
      pre ++ [EvCaAddFunction f (Returned tt); EvCaFinish (Returned m);
              EvCgAddFunction f m r] ++ post ∧
    length (cg_inputs pre) = i.
Proof.
  revert w i. induction fs as [| f0 fs IH]; intros w i; [done |].
  rewrite loop_cons. cbn [snapshots].
  destruct (ca_AddFunction f0 (ca w)) as [s1 |]; [| done].
  destruct (ca_Finish s1) as [[m0 s2] |]; [| done].
  destruct (cg_AddFunction f0 m0 (cg w)) as [g | e].
  - destruct i as [| i]; cbn.
    + intros [= <- <-]. do 2 (split; [done |]).
      by exists [], (Returned tt), (trace (run (for_each fs per_function) (Frame s2 g (diag w)))).
    + intros Hi. destruct (IH _ _ Hi) as (? & ? & pre & r & post & Ht & Hl).
      do 2 (split; [done |]).
      exists (iteration f0 m0 ++ pre), r, post. split.
      * cbn in *. by rewrite Ht.
      * cbn. by rewrite Hl.
  - destruct i as [| i]; cbn; [| done].
    intros [= <- <-]. do 2 (split; [done |]).
    by exists [], (Raised e), [].
Qed.

(** The snapshots of a prefix are a prefix of the snapshots. *)
Lemma snapshots_take fs (s : ca_state) n :
  snapshots (take n fs) s = take n (snapshots fs s).
Proof.
  revert s n. induction fs as [| f fs IH]; intros s [| n]; cbn; try done.
  destruct (ca_AddFunction f s) as [s1 |]; [| done].
  destruct (ca_Finish s1) as [[m s2] |]; [| done].
  cbn. by rewrite IH.
Qed.

(** The whole body after the loop, unfolded. *)
Lemma body_run (funcs : list LoweredFunc) w :
  run (body funcs) w =
  let l := run (for_each funcs per_function) w in
  match out l with
  | Raised e => Result (trace l) (final l) (Raised e)
  | Returned _ =>
      match cg_Finish (cg (final l)) with
      | Raised e =>
          Result (trace l ++ [EvCgFinish (Raised e)]) (final l) (Raised e)
      | Returned (code, g) =>
          Result (trace l ++ [EvCgFinish (Returned code); EvLogWarning warning])
            (Frame (ca (final l)) g (diag (final l) ++ [warning]))
            (Returned code)
      end
  end.
Proof.
  unfold body, mbind, prog_bind. rewrite run_bind. cbn zeta.
  destruct (out (run (for_each funcs per_function) w)); [| done].
  cbn. by destruct (cg_Finish _) as [[code g] |].
Qed.

End LoopFacts.

(** ** The driver over arbitrary collaborators *)

Section DriverFacts.
Context {LoweredFunc TypeMap : Type}.
Context `{!CodeAnalysis LoweredFunc TypeMap, !CodeGenRV64PPAC LoweredFunc TypeMap}.
Implicit Types (funcs : list LoweredFunc) (d : list string).

Lemma iterations_counts funcs (ms : list TypeMap) :
  length ms = length funcs →
  count is_CaAddFunction (iterations funcs ms) = length funcs ∧
  count is_CaFinish (iterations funcs ms) = length funcs ∧
  count is_CgAddFunction (iterations funcs ms) = length funcs ∧
  count is_CgFinish (iterations funcs ms) = 0 ∧
  count is_LogWarning (iterations funcs ms) = 0.
Proof.
  revert ms. induction funcs as [| f funcs IH]; intros [| m ms] Hl; try done.
  injection Hl as Hl. destruct (IH ms Hl) as (H1 & H2 & H3 & H4 & H5).
  cbn. by rewrite H1, H2, H3, H4, H5.
Qed.

Lemma iterations_inputs funcs (ms : list TypeMap) :
  length ms = length funcs →
  cg_inputs (iterations funcs ms) = zip funcs ms ∧
  map fst (cg_inputs (iterations funcs ms)) = funcs ∧
  logged (iterations funcs ms) = [].
Proof.
  revert ms. induction funcs as [| f funcs IH]; intros [| m ms] Hl; try done.
  injection Hl as Hl. destruct (IH ms Hl) as (H1 & H2 & H3).
  cbn. by rewrite H1, H3, <- H1, H2.
Qed.

(** The trace, outcome and final objects of a call do not depend on what the
    diagnostic channel held when the call started. *)
Lemma build_diag_irrelevant funcs d d' :
  trace (BuildRV64PPAC funcs d') = trace (BuildRV64PPAC funcs d) ∧
  out (BuildRV64PPAC funcs d') = out (BuildRV64PPAC funcs d).
Proof.
  unfold BuildRV64PPAC.
  by destruct (run_diag_irrelevant (body funcs) ca_new cg_new d d') as (-> & -> & _).
Qed.

(** The shape of a call that returns. *)
Lemma build_returned funcs d code :
  out (BuildRV64PPAC funcs d) = Returned code →
  let ms := snapshots funcs ca_new in
  length ms = length funcs ∧
  trace (BuildRV64PPAC funcs d) =
    iterations funcs ms ++ [EvCgFinish (Returned code); EvLogWarning warning] ∧
  ∃ g g', cg_feed (zip funcs ms) cg_new = Returned g ∧
          cg_Finish g = Returned (code, g').
Proof.
  unfold BuildRV64PPAC. rewrite body_run. cbn zeta.
  pose proof (loop_returned funcs (Frame ca_new cg_new d)) as Hl. cbn zeta in Hl.
  destruct (out (run (for_each funcs per_function) _)) as [[] |]; [| done].
  destruct (Hl eq_refl) as (Ht & Hlen & Hg). cbn in Ht, Hlen, Hg.
  destruct (cg_Finish _) as [[code' g'] |] eqn:Hf; [| done].
  cbn. intros [= ->]. rewrite Ht. do 2 (split; [done |]). eauto.
Qed.

(** C1 (as amended). A call that returns appends the warning of line 24 to
    the diagnostic channel exactly once, whatever the number of functions; a
    call that ends with a failure of a collaborator appends nothing, because
    the log statement comes after the loop and after [cg.Finish()]. *)
Theorem warning_logged_once_iff_returned funcs d :
  diag (final (BuildRV64PPAC funcs d)) =
    (if is_returned (out (BuildRV64PPAC funcs d)) then d ++ [warning] else d) ∧
  count is_LogWarning (trace (BuildRV64PPAC funcs d)) =
    (if is_returned (out (BuildRV64PPAC funcs d)) then 1 else 0).
Proof.
  unfold BuildRV64PPAC. rewrite body_run. cbn zeta.
  pose proof (run_diag (for_each funcs per_function) (Frame ca_new cg_new d)) as Hd.
  destruct (loop_quiet funcs (Frame ca_new cg_new d)) as (Hq & _ & Hc).
  rewrite Hq, app_nil_r in Hd. cbn in Hd.
  destruct (out (run (for_each funcs per_function) _)); cbn; [| done].
  destruct (cg_Finish _) as [[code g] |]; cbn.
  - rewrite Hd, count_app, Hc. done.
  - rewrite count_app, Hc. done.
Qed.

(** C2. Whenever an operation of a collaborator throws during a call, that
    operation is the last thing the call does (nothing is caught, retried or
    recovered from) and the outcome of the call is that same failure: no
    text, and in particular none of the text accumulated so far, is
    returned. *)
Theorem failure_propagates_unchanged funcs d pre ev post e :
  trace (BuildRV64PPAC funcs d) = pre ++ ev :: post →
  raised ev = Some e →
  post = [] ∧
  out (BuildRV64PPAC funcs d) = Raised e ∧
  ∀ code, out (BuildRV64PPAC funcs d) ≠ Returned code.
Proof.
  unfold BuildRV64PPAC. intros Ht Hev.
  destruct (run_raised _ _ _ _ _ _ Ht Hev) as [-> Ho].
  split; [done |]. split; [done |]. intros code. by rewrite Ho.
Qed.

(** C3. The map handed to [cg.AddFunction] for the function at index [i] is
    the map [ca.Finish()] returned right after [ca.AddFunction] registered
    that function; it is the [i]-th snapshot of the analyzer run on the
    functions [0..i] alone, so any other function set with the same first
    [i+1] functions hands the same map to the generator at index [i]. *)
Theorem generator_sees_snapshot_of_prefix funcs d i f m :
  cg_inputs (trace (BuildRV64PPAC funcs d)) !! i = Some (f, m) →
  funcs !! i = Some f ∧
  snapshots (take (S i) funcs) ca_new !! i = Some m ∧
  (∃ pre r post,
     trace (BuildRV64PPAC funcs d) =
       pre ++ [EvCaAddFunction f (Returned tt); EvCaFinish (Returned m);
               EvCgAddFunction f m r] ++ post ∧
     length (cg_inputs pre) = i) ∧
  ∀ funcs' d' f' m',
    take (S i) funcs' = take (S i) funcs →
    cg_inputs (trace (BuildRV64PPAC funcs' d')) !! i = Some (f', m') →
    f' = f ∧ m' = m.
Proof.
  assert (Hloop : ∀ fs d0,
    cg_inputs (trace (BuildRV64PPAC fs d0)) =
    cg_inputs (trace (run (for_each fs per_function) (Frame ca_new cg_new d0))) ∧
    ∃ rest, trace (BuildRV64PPAC fs d0) =
      trace (run (for_each fs per_function) (Frame ca_new cg_new d0)) ++ rest).
  { intros fs d0. unfold BuildRV64PPAC. rewrite body_run. cbn zeta.
    destruct (out (run (for_each fs per_function) _)); cbn.
    - destruct (cg_Finish _) as [[code g] |]; cbn;
        (split; [by rewrite cg_inputs_app, app_nil_r | eauto]).
    - split; [done |]. exists []. by rewrite app_nil_r. }
  intros Hi. destruct (Hloop funcs d) as [Hin [rest Hrest]].
  rewrite Hin in Hi.
  destruct (loop_cg_inputs _ _ _ _ _ Hi) as (Hf & Hm & pre & r & post & Ht & Hl).
  cbn in Hm.
  assert (Hm' : snapshots (take (S i) funcs) ca_new !! i = Some m).
  { rewrite snapshots_take, lookup_take_lt by lia. done. }
  split; [done |]. split; [done |]. split.
  - exists pre, r, (post ++ rest). split; [| done].
    rewrite Hrest, Ht. by rewrite <- !app_assoc.
  - intros funcs' d' f' m' Htake Hi'.
    destruct (Hloop funcs' d') as [Hin' _]. rewrite Hin' in Hi'.
    destruct (loop_cg_inputs _ _ _ _ _ Hi') as (Hf' & Hm2 & _). cbn in Hm2.
    split.
    + assert (Hx : take (S i) funcs' !! i = take (S i) funcs !! i) by by rewrite Htake.
      rewrite !lookup_take_lt in Hx by lia. congruence.
    + assert (Hx : snapshots (take (S i) funcs') ca_new !! i = Some m')
        by (rewrite snapshots_take, lookup_take_lt by lia; done).
      rewrite Htake in Hx. congruence.
Qed.

(** C7. A call that returns [code] ends with [cg.Finish()] returning [code]
    followed by the log statement and nothing else; [code] is what
    [cg.Finish()] yields on the generator to which every function has been
    added, in order, with its snapshot; and the call returns the same [code]
    whatever the diagnostic channel holds, the warning being written to the
    channel only. *)
Theorem returns_generator_finish_text funcs d code :
  out (BuildRV64PPAC funcs d) = Returned code →
  (∃ pre, trace (BuildRV64PPAC funcs d) =
            pre ++ [EvCgFinish (Returned code); EvLogWarning warning] ∧
          map fst (cg_inputs pre) = funcs ∧
          count is_CgFinish pre = 0 ∧ count is_LogWarning pre = 0) ∧
  (∃ g g', cg_feed (zip funcs (snapshots funcs ca_new)) cg_new = Returned g ∧
           cg_Finish g = Returned (code, g')) ∧
  diag (final (BuildRV64PPAC funcs d)) = d ++ [warning] ∧
  ∀ d', out (BuildRV64PPAC funcs d') = Returned code.
Proof.
  intros Ho. destruct (build_returned _ _ _ Ho) as (Hl & Ht & Hg).
  destruct (iterations_counts funcs _ Hl) as (_ & _ & _ & Hc & Hw).
  destruct (iterations_inputs funcs _ Hl) as (_ & Hi & Hq).
  split; [| split; [done | split]].
  - by exists (iterations funcs (snapshots funcs ca_new)).
  - pose proof (run_diag (body funcs) (Frame ca_new cg_new d)) as Hd.
    fold (BuildRV64PPAC funcs d) in Hd. rewrite Hd, Ht. cbn. f_equal.
    clear -Hq. induction (iterations funcs (snapshots funcs ca_new)) as [| ev t IH];
      [done |].
    destruct ev; cbn in *; by auto.
  - intros d'. by destruct (build_diag_irrelevant funcs d d') as [_ ->].
Qed.

(** C9. On the empty function set the call performs exactly one operation
    on a collaborator, [cg.Finish()] on the generator as constructed, and
    returns its result as it is (or fails with its failure); the analyzer is
    left as constructed and [cg.AddFunction] is not called. *)
Theorem empty_set_only_finishes_generator d :
  BuildRV64PPAC [] d =
  match cg_Finish cg_new with
  | Returned (code, g) =>
      Result [EvCgFinish (Returned code); EvLogWarning warning]
        (Frame ca_new g (d ++ [warning])) (Returned code)
  | Raised e => Result [EvCgFinish (Raised e)] (Frame ca_new cg_new d) (Raised e)
  end.
Proof.
  unfold BuildRV64PPAC. cbn. by destruct (cg_Finish cg_new) as [[code g] |].
Qed.

(** C10. In a call on [n] functions that runs to completion, the trace is
    [n] iterations, each one [ca.AddFunction(f)], [ca.Finish()],
    [cg.AddFunction(f, m)] for the next function, followed by one
    [cg.Finish()] and the log statement: [ca.Finish()] is called [n] times,
    each time right after a registration and before the next one and never
    after the loop, and [cg.Finish()] is called once, after the last
    function was added. *)
Theorem finish_calls_counted funcs d code :
  out (BuildRV64PPAC funcs d) = Returned code →
  ∃ ms, length ms = length funcs ∧
    trace (BuildRV64PPAC funcs d) =
      iterations funcs ms ++ [EvCgFinish (Returned code); EvLogWarning warning] ∧
    count is_CaFinish (trace (BuildRV64PPAC funcs d)) = length funcs ∧
    count is_CaFinish (iterations funcs ms) = length funcs ∧
    count is_CgFinish (trace (BuildRV64PPAC funcs d)) = 1 ∧
    count is_CgFinish (iterations funcs ms) = 0.
Proof.
  intros Ho. destruct (build_returned _ _ _ Ho) as (Hl & Ht & _).
  destruct (iterations_counts funcs _ Hl) as (_ & Hn & _ & Hc & _).
  exists (snapshots funcs ca_new). rewrite Ht, !count_app, Hn, Hc. cbn.
  repeat split; try done; lia.
Qed.

End DriverFacts.

(** ** Text *)

Lemma append_cons (a : Ascii.ascii) (s1 s2 : string) :
  String a s1 +:+ s2 = String a (s1 +:+ s2).
Proof. reflexivity. Qed.

Lemma append_nil_r (s : string) : s +:+ "" = s.
Proof.
  induction s as [| a s IH]; [done |]. by rewrite append_cons, IH.
Qed.

Lemma append_assoc (s1 s2 s3 : string) : (s1 +:+ s2) +:+ s3 = s1 +:+ (s2 +:+ s3).
Proof.
  induction s1 as [| a s1 IH]; [done |]. by rewrite !append_cons, IH.
Qed.

Lemma length_append (s1 s2 : string) :
  String.length (s1 +:+ s2) = String.length s1 + String.length s2.
Proof.
  induction s1 as [| a s1 IH]; [done |]. rewrite append_cons. simpl. by rewrite IH.
Qed.

Lemma substring_prefix (s1 s2 : string) :
  String.substring 0 (String.length s1) (s1 +:+ s2) = s1.
Proof.
  induction s1 as [| a s1 IH]; [by destruct s2 |].
  rewrite append_cons. simpl. by rewrite IH.
Qed.

Lemma substring_skip (s1 s2 : string) (n : nat) :
  String.substring (String.length s1) n (s1 +:+ s2) = String.substring 0 n s2.
Proof.
  induction s1 as [| a s1 IH]; [done |]. rewrite append_cons. simpl. done.
Qed.

Lemma flatten_app (ts1 ts2 : list string) :
  flatten (ts1 ++ ts2) = flatten ts1 +:+ flatten ts2.
Proof.
  induction ts1 as [| t ts1 IH]; [done |]. simpl. by rewrite IH, append_assoc.
Qed.

(** Piece [i] of a concatenation sits at its offset, right where piece [i-1]
    ends. *)
Lemma flatten_piece (ts : list string) (i : nat) (t : string) :
  ts !! i = Some t →
  String.substring (offset ts i) (String.length t) (flatten ts) = t ∧
  offset ts (S i) = offset ts i + String.length t.
Proof.
  intros Hi. unfold offset.
  rewrite <- (take_drop i ts) at 2.
  rewrite (take_S_r _ _ _ Hi), (drop_S _ _ _ Hi), !flatten_app. cbn.
  rewrite substring_skip, substring_prefix, length_append, append_nil_r.
  done.
Qed.

(** ** The driver with the generator of the contract *)

Section GeneratorContract.
Context {LoweredFunc TypeMap : Type} `{!CodeAnalysis LoweredFunc TypeMap}.
Context (translate : LoweredFunc → TypeMap → string + string).

Local Notation "'build'" :=
  (@BuildRV64PPAC LoweredFunc TypeMap _ (contract_generator translate)).

(** Feeding the generator appends the translations, in order, to its buffer. *)
Lemma feed_appends (fms : list (LoweredFunc * TypeMap)) (buf g : string) :
  @cg_feed _ _ (contract_generator translate) fms buf = Returned g →
  ∃ texts, Forall2 (λ fm t, translate fm.1 fm.2 = inl t) fms texts ∧
           g = buf +:+ flatten texts.
Proof.
  revert buf. induction fms as [| [f m] fms IH]; intros buf; cbn.
  - intros [= <-]. exists []. by rewrite append_nil_r.
  - destruct (translate f m) as [t | what] eqn:Ht; [| done].
    intros Hg. destruct (IH _ Hg) as (texts & Hall & ->).
    exists (t :: texts). split; [by constructor |]. cbn. by rewrite append_assoc.
Qed.

(** C4. When the call returns, the returned text is the concatenation, in
    the order of the function set, of one piece per function, piece [i] being
    the translation of function [i] under its snapshot; piece [i] occupies
    the returned text from its offset on, and the next piece starts exactly
    where it ends, so the text of a function lies after the text of the
    function before it and nothing is interleaved. *)
Theorem text_in_function_order (funcs : list LoweredFunc) d code :
  out (build funcs d) = Returned code →
  ∃ texts,
    length texts = length funcs ∧
    (∀ i f m, funcs !! i = Some f → snapshots funcs ca_new !! i = Some m →
       ∃ t, texts !! i = Some t ∧ translate f m = inl t) ∧
    code = flatten texts ∧
    ∀ i t, texts !! i = Some t →
      String.substring (offset texts i) (String.length t) code = t ∧
      offset texts (S i) = offset texts i + String.length t.
Proof.
  intros Ho. destruct (build_returned _ _ _ Ho) as (Hl & _ & g & g' & Hg & Hf).
  cbn in Hf. injection Hf as <- _.
  destruct (feed_appends _ _ _ Hg) as (texts & Hall & ->). cbn.
  exists texts. split; [| split; [| split; [done |]]].
  - rewrite <- (Forall2_length _ _ _ Hall), length_zip_with. cbn in Hl. lia.
  - intros i f m Hi Hm.
    assert (Hz : zip funcs (snapshots funcs ca_new) !! i = Some (f, m)).
    { rewrite lookup_zip_with, Hi. cbn. by rewrite Hm. }
    destruct (Forall2_lookup_l _ _ _ _ _ Hall Hz) as (t & Ht & Htr). eauto.
  - intros i t Hi. by apply flatten_piece.
Qed.

(** C5. On the empty function set the call returns the empty text: its only
    operations are [cg.Finish()], which returns the empty buffer of the new
    generator, and the log statement; nothing fails. *)
Theorem empty_set_empty_text d :
  build [] d =
  Result [EvCgFinish (Returned ""); EvLogWarning warning]
    (@Frame _ _ _ (contract_generator translate) ca_new "" (d ++ [warning]))
    (Returned "").
Proof. reflexivity. Qed.

End GeneratorContract.

(** ** The driver with both collaborators of the contract *)

Section BothContracts.
Context {LoweredFunc Ty : Type} `{EqDecision Ty}.
Context (arg_usages : LoweredFunc → list (string * Ty)).
Context (translate : LoweredFunc → gmap string Ty → string + string).

Local Notation "'build'" :=
  (@BuildRV64PPAC LoweredFunc (gmap string Ty)
     (contract_analyzer arg_usages) (contract_generator translate)).

(** C8 (as amended). For a single function without arguments the analyzer
    calls succeed and the generator gets the empty map; the call then returns
    exactly the translation of the function under the empty map when it has
    one, and otherwise fails with the generator's failure, of kind unsupported
    construct. *)
Theorem single_function_without_arguments (f : LoweredFunc) d :
  arg_usages f = [] →
  build [f] d =
  match translate f ∅ with
  | inl t =>
      Result [EvCaAddFunction f (Returned tt); EvCaFinish (Returned ∅);
              EvCgAddFunction f ∅ (Returned tt);
              EvCgFinish (Returned t); EvLogWarning warning]
        (@Frame _ _ (contract_analyzer arg_usages) (contract_generator translate)
           ∅ t (d ++ [warning]))
        (Returned t)
  | inr what =>
      Result [EvCaAddFunction f (Returned tt); EvCaFinish (Returned ∅);
              EvCgAddFunction f ∅ (Raised (Failure UnsupportedConstruct what))]
        (@Frame _ _ (contract_analyzer arg_usages) (contract_generator translate)
           ∅ "" d)
        (Raised (Failure UnsupportedConstruct what))
  end.
Proof.
  intros Hargs. unfold BuildRV64PPAC. rewrite body_run, loop_cons. cbn.
  rewrite Hargs. cbn. by destruct (translate f ∅).
Qed.

End BothContracts.

(** ** The driver on the small compilation unit *)

Module UnitFacts.
Import Unit.

(** C1, counterexample. On two functions that disagree on the type of [A]
    the analyzer throws while registering the second one; the call fails and
    the diagnostic channel stays empty. *)
Lemma warning_logged_once_iff_returned_counterexample :
  out (build clashing []) = Raised (Failure InconsistentArgumentType "A") ∧
  diag (final (build clashing [])) = [] ∧
  diag (final (build clashing [])) ≠ [] ++ [warning] ∧
  count is_LogWarning (trace (build clashing [])) = 0.
Proof. vm_compute. repeat split. discriminate. Qed.

(** C2 on a failing analyzer (clashing types) and on a failing generator (a
    construct without translation). *)
Lemma failure_propagates_unchanged_witness :
  trace (build clashing []) =
    iteration load map_A ++
    [EvCaAddFunction cast (Raised (Failure InconsistentArgumentType "A"))] ∧
  out (build clashing []) = Raised (Failure InconsistentArgumentType "A") ∧
  trace (build [fence] []) =
    [EvCaAddFunction fence (Returned tt); EvCaFinish (Returned ∅);
     EvCgAddFunction fence ∅ (Raised (Failure UnsupportedConstruct "Fence"))] ∧
  out (build [fence] []) = Raised (Failure UnsupportedConstruct "Fence").
Proof.
  assert (H1 : trace (build clashing []) =
    iteration load map_A ++
    [EvCaAddFunction cast (Raised (Failure InconsistentArgumentType "A"))])
    by (vm_compute; reflexivity).
  assert (H2 : trace (build [fence] []) =
    [EvCaAddFunction fence (Returned tt); EvCaFinish (Returned ∅)] ++
    [EvCgAddFunction fence ∅ (Raised (Failure UnsupportedConstruct "Fence"))])
    by (vm_compute; reflexivity).
  split; [exact H1 |]. split.
  - exact (proj1 (proj2 (@failure_propagates_unchanged _ _ analyzer generator
      clashing [] _ _ [] _ H1 eq_refl))).
  - split; [exact H2 |].
    exact (proj1 (proj2 (@failure_propagates_unchanged _ _ analyzer generator
      [fence] [] _ _ [] _ H2 eq_refl))).
Defined.

(** C3 on the second of two agreeing functions. *)
Lemma generator_sees_snapshot_of_prefix_witness :
  cg_inputs (trace (build agreeing [])) !! 1 = Some (axpy, map_AB) ∧
  agreeing !! 1 = Some axpy ∧
  @snapshots _ _ analyzer (take 2 agreeing) ∅ !! 1 = Some map_AB.
Proof.
  assert (H : cg_inputs (trace (build agreeing [])) !! 1 = Some (axpy, map_AB))
    by (vm_compute; reflexivity).
  split; [exact H |].
  destruct (@generator_sees_snapshot_of_prefix _ _ analyzer generator
    agreeing [] 1 axpy map_AB H) as (H1 & H2 & _).
  split; [exact H1 | exact H2].
Defined.

(** C7 on two agreeing functions. *)
Lemma returns_generator_finish_text_witness :
  out (build agreeing []) =
    Returned "load(int32_t* A;){ld A}axpy(int32_t* A;float* B;){mac A B}" ∧
  diag (final (build agreeing [])) = [] ++ [warning] ∧
  ∀ d', out (build agreeing d') =
    Returned "load(int32_t* A;){ld A}axpy(int32_t* A;float* B;){mac A B}".
Proof.
  assert (H : out (build agreeing []) =
    Returned "load(int32_t* A;){ld A}axpy(int32_t* A;float* B;){mac A B}")
    by (vm_compute; reflexivity).
  split; [exact H |].
  destruct (@returns_generator_finish_text _ _ analyzer generator
    agreeing [] _ H) as (_ & _ & H1 & H2).
  split; [exact H1 | exact H2].
Defined.

(** C10 on two agreeing functions. *)
Lemma finish_calls_counted_witness :
  out (build agreeing []) =
    Returned "load(int32_t* A;){ld A}axpy(int32_t* A;float* B;){mac A B}" ∧
  count is_CaFinish (trace (build agreeing [])) = 2 ∧
  count is_CgFinish (trace (build agreeing [])) = 1.
Proof.
  assert (H : out (build agreeing []) =
    Returned "load(int32_t* A;){ld A}axpy(int32_t* A;float* B;){mac A B}")
    by (vm_compute; reflexivity).
  split; [exact H |].
  destruct (@finish_calls_counted _ _ analyzer generator agreeing [] _ H)
    as (ms & _ & _ & H1 & _ & H2 & _).
  split; [exact H1 | exact H2].
Defined.

(** C4 on two agreeing functions: the text of [axpy] follows that of [load]. *)
Lemma text_in_function_order_witness :
  out (build agreeing []) =
    Returned "load(int32_t* A;){ld A}axpy(int32_t* A;float* B;){mac A B}" ∧
  ∃ texts, length texts = 2 ∧
    "load(int32_t* A;){ld A}axpy(int32_t* A;float* B;){mac A B}" = flatten texts.
Proof.
  assert (H : out (build agreeing []) =
    Returned "load(int32_t* A;){ld A}axpy(int32_t* A;float* B;){mac A B}")
    by (vm_compute; reflexivity).
  split; [exact H |].
  destruct (@text_in_function_order _ _ analyzer translate agreeing [] _ H)
    as (texts & H1 & _ & H2 & _).
  exists texts. split; [exact H1 | exact H2].
Defined.

(** C8, counterexample. A single function without arguments whose body has a
    construct the target lacks: the call fails. *)
Lemma single_function_without_arguments_counterexample :
  args fence = [] ∧
  out (build [fence] []) = Raised (Failure UnsupportedConstruct "Fence") ∧
  is_returned (out (build [fence] [])) = false.
Proof. vm_compute. done. Qed.

(** C8 on a function without arguments that has a translation. *)
Lemma single_function_without_arguments_witness :
  args nop = [] ∧ translate nop ∅ = inl "nop(){}" ∧
  out (build [nop] []) = Returned "nop(){}".
Proof.
  split; [reflexivity |]. split; [reflexivity |].
  unfold build, analyzer, generator.
  rewrite (@single_function_without_arguments _ _ _ args translate nop []
    eq_refl).
  reflexivity.
Defined.

End UnitFacts.

(** ** Further properties of the driver *)

Section MoreDriverFacts.
Context {LoweredFunc TypeMap : Type}.
Context `{!CodeAnalysis LoweredFunc TypeMap, !CodeGenRV64PPAC LoweredFunc TypeMap}.
Implicit Types (funcs fs : list LoweredFunc) (d : list string).
Implicit Types (w : @frame LoweredFunc TypeMap _ _).
Implicit Types (t : list (@event LoweredFunc TypeMap)).

(** The three ways a call can end: in the loop, in [cg.Finish()], or by
    returning. *)
Lemma build_cases funcs d :
  let l := run (for_each funcs per_function) (Frame ca_new cg_new d) in
  (∃ e, out l = Raised e ∧
        BuildRV64PPAC funcs d = Result (trace l) (final l) (Raised e)) ∨
  (∃ e, out l = Returned tt ∧
        BuildRV64PPAC funcs d =
          Result (trace l ++ [EvCgFinish (Raised e)]) (final l) (Raised e)) ∨
  (∃ code g, out l = Returned tt ∧
        BuildRV64PPAC funcs d =
          Result (trace l ++ [EvCgFinish (Returned code); EvLogWarning warning])
            (Frame (ca (final l)) g (diag (final l) ++ [warning]))
            (Returned code)).
Proof.
  cbn zeta. unfold BuildRV64PPAC. rewrite body_run. cbn zeta.
  destruct (out (run (for_each funcs per_function) _)) as [[] | e].
  - destruct (cg_Finish _) as [[code g] | e]; [right; right | right; left]; eauto.
  - left. eauto.
Qed.

(** The loop over a concatenation is the loop over the first part followed,
    if that one ran through, by the loop over the second part. *)
Lemma for_each_app fs1 fs2 w :
  run (for_each (fs1 ++ fs2) per_function) w =
  let l := run (for_each fs1 per_function) w in
  match out l with
  | Returned _ =>
      let r := run (for_each fs2 per_function) (final l) in
      Result (trace l ++ trace r) (final r) (out r)
  | Raised e => Result (trace l) (final l) (Raised e)
  end.
Proof.
  revert w. induction fs1 as [| f fs1 IH]; intros w.
  - cbn. by destruct (run (for_each fs2 per_function) w).
  - rewrite <- app_comm_cons, !loop_cons. cbn zeta.
    destruct (ca_AddFunction f (ca w)) as [s1 |]; [| done].
    destruct (ca_Finish s1) as [[m s2] |]; [| done].
    destruct (cg_AddFunction f m (cg w)) as [g |]; [| done].
    rewrite IH. cbn.
    by destruct (out (run (for_each fs1 per_function) _)).
Qed.

(** The loop produces loop events only, at most three per function, and
    exactly three per function when it runs through. *)
Lemma loop_events fs w :
  let l := run (for_each fs per_function) w in
  List.filter in_loop (trace l) = trace l ∧
  length (trace l) ≤ 3 * length fs ∧
  (out l = Returned tt → length (trace l) = 3 * length fs).
Proof.
  revert w. induction fs as [| f fs IH]; intros w; [done |].
  cbn zeta. rewrite loop_cons.
  destruct (ca_AddFunction f (ca w)) as [s1 |]; [| cbn; repeat split; [lia | done]].
  destruct (ca_Finish s1) as [[m s2] |]; [| cbn; repeat split; [lia | done]].
  destruct (cg_AddFunction f m (cg w)) as [g |]; [| cbn; repeat split; [lia | done]].
  destruct (IH (Frame s2 g (diag w))) as (Hf & Hle & Heq). cbn in *.
  rewrite Hf. split; [done |]. split; [lia |]. intros Ho. rewrite (Heq Ho). lia.
Qed.

(** The analyzer is given a prefix of the functions, in order, and the
    generator the same prefix or all of it but the last function. *)
Lemma loop_inputs fs w :
  let t := trace (run (for_each fs per_function) w) in
  ca_inputs t `prefix_of` fs ∧
  (cg_inputs t).*1 `prefix_of` ca_inputs t ∧
  length (ca_inputs t) ≤ S (length (cg_inputs t)).
Proof.
  revert w. induction fs as [| f fs IH]; intros w.
  - cbn. repeat split; [done | done | lia].
  - cbn zeta. rewrite loop_cons.
    destruct (ca_AddFunction f (ca w)) as [s1 |]; cbn.
    2:{ split; [by exists fs |]. split; [by apply prefix_nil | lia]. }
    destruct (ca_Finish s1) as [[m s2] |]; cbn.
    2:{ split; [by exists fs |]. split; [by apply prefix_nil | lia]. }
    destruct (cg_AddFunction f m (cg w)) as [g |]; cbn.
    2:{ split; [by exists fs |]. split; [done | lia]. }
    destruct (IH (Frame s2 g (diag w))) as (H1 & H2 & H3). cbn in *.
    split; [by apply prefix_cons |]. split; [by apply prefix_cons | lia].
Qed.

(** X1. In every call, returning or failing, [ca.AddFunction] is given a
    prefix of the array, in array order, and [cg.AddFunction] is given the
    same functions except possibly the last one: no function is skipped,
    reordered or given to the generator without having been registered. *)
Theorem inputs_follow_the_array funcs d :
  let t := trace (BuildRV64PPAC funcs d) in
  ca_inputs t `prefix_of` funcs ∧
  (cg_inputs t).*1 `prefix_of` ca_inputs t ∧
  length (ca_inputs t) ≤ S (length (cg_inputs t)).
Proof.
  cbn zeta.
  assert (Hca : ∀ t1 t2, ca_inputs (t1 ++ t2) = ca_inputs t1 ++ ca_inputs t2).
  { intros t1 t2. induction t1 as [| ev t1 IH]; [done |].
    destruct ev; cbn; by rewrite ?IH. }
  pose proof (loop_inputs funcs (Frame ca_new cg_new d)) as Hl. cbn zeta in Hl.
  destruct (build_cases funcs d) as [(e & _ & ->) | [(e & _ & ->) | (c & g & _ & ->)]];
    cbn [trace]; rewrite ?Hca, ?cg_inputs_app; cbn; rewrite ?app_nil_r; done.
Qed.

(** X2. A call that fails before reaching [cg.Finish()] is not changed by
    functions appended to the array: trace, final frame and outcome are the
    same, so the appended functions are never looked at. *)
Theorem failure_cuts_off_later_functions funcs more d e :
  out (BuildRV64PPAC funcs d) = Raised e →
  count is_CgFinish (trace (BuildRV64PPAC funcs d)) = 0 →
  BuildRV64PPAC (funcs ++ more) d = BuildRV64PPAC funcs d.
Proof.
  intros Ho Hc.
  destruct (build_cases funcs d) as [(e' & Hl & Hb) | [(e' & _ & Hb) | (c & g & _ & Hb)]].
  - rewrite Hb. unfold BuildRV64PPAC. rewrite body_run, for_each_app. cbn zeta.
    by rewrite Hl.
  - rewrite Hb in Hc. cbn [trace] in Hc. rewrite count_app in Hc. cbn in Hc. lia.
  - by rewrite Hb in Ho.
Qed.

(** X3. Appending functions to the array does not change what is done for
    the earlier ones: the member calls a call makes in its loop are the
    first events of the call on any extension of the array. *)
Theorem loop_events_prefix_of_extension funcs more d :
  List.filter in_loop (trace (BuildRV64PPAC funcs d))
    `prefix_of` trace (BuildRV64PPAC (funcs ++ more) d).
Proof.
  assert (Hf : ∀ fs, ∃ tail,
    trace (BuildRV64PPAC fs d) =
      trace (run (for_each fs per_function) (Frame ca_new cg_new d)) ++ tail ∧
    List.filter in_loop tail = []).
  { intros fs.
    destruct (build_cases fs d) as [(e & _ & ->) | [(e & _ & ->) | (c & g & _ & ->)]];
      cbn [trace]; [exists [] | eexists | eexists]; split; try done.
    by rewrite app_nil_r. }
  destruct (Hf funcs) as (tail & -> & Htail).
  destruct (Hf (funcs ++ more)) as (tail' & -> & _).
  rewrite List.filter_app, Htail, app_nil_r.
  destruct (loop_events funcs (Frame ca_new cg_new d)) as (-> & _).
  rewrite for_each_app. cbn zeta.
  destruct (out (run (for_each funcs per_function) _)); cbn [trace].
  - rewrite <- app_assoc. by eexists.
  - by eexists.
Qed.

(** X4. A call on [n] functions makes at most [3n + 2] operations, log
    statement included, and makes that many exactly when it returns. *)
Theorem operations_bounded funcs d :
  length (trace (BuildRV64PPAC funcs d)) ≤ 3 * length funcs + 2 ∧
  (is_returned (out (BuildRV64PPAC funcs d)) = true ↔
   length (trace (BuildRV64PPAC funcs d)) = 3 * length funcs + 2).
Proof.
  destruct (loop_events funcs (Frame ca_new cg_new d)) as (_ & Hle & Heq).
  destruct (build_cases funcs d) as [(e & Hl & ->) | [(e & Hl & ->) | (c & g & Hl & ->)]];
    cbn [trace out is_returned]; rewrite ?length_app; cbn [length].
  - split; [lia |]. split; [done | lia].
  - specialize (Heq Hl). split; [lia |]. split; [done | lia].
  - specialize (Heq Hl). split; [lia |]. split; [lia | done].
Qed.

(** X5. The driver raises nothing of its own: a call that fails with [e]
    ends with a member call that threw [e], every operation before it
    returned, and the diagnostic channel is as the call found it. *)
Theorem failure_comes_from_last_operation funcs d e :
  out (BuildRV64PPAC funcs d) = Raised e →
  ∃ pre ev,
    trace (BuildRV64PPAC funcs d) = pre ++ [ev] ∧
    raised ev = Some e ∧
    Forall (λ ev', raised ev' = None) pre ∧
    diag (final (BuildRV64PPAC funcs d)) = d.
Proof.
  intros Ho. destruct (run_failed _ _ _ Ho) as (pre & ev & Ht & Hev).
  exists pre, ev. fold (BuildRV64PPAC funcs d) in Ht.
  split; [done |]. split; [done |]. split.
  - apply Forall_forall. intros ev' Hin.
    apply list_elem_of_split in Hin as (l1 & l2 & ->).
    destruct (raised ev') as [e' |] eqn:Hr; [| done].
    rewrite <- app_assoc in Ht. cbn in Ht.
    destruct (run_raised _ _ _ _ _ _ Ht Hr) as [Hnil _].
    by destruct l2.
  - pose proof (run_diag (body funcs) (Frame ca_new cg_new d)) as Hd.
    fold (BuildRV64PPAC funcs d) in Hd. rewrite Hd. cbn.
    destruct (loop_quiet funcs (Frame ca_new cg_new d)) as (Hq & _).
    assert (Hlog : ∀ t1 t2, logged (t1 ++ t2) = logged t1 ++ logged t2).
    { intros t1 t2. induction t1 as [| x t1 IH]; [done |].
      destruct x; cbn; by rewrite ?IH. }
    destruct (build_cases funcs d) as [(e' & _ & Hb) | [(e' & _ & Hb) | (c & g & _ & Hb)]].
    + rewrite Hb. cbn [trace]. by rewrite Hq, app_nil_r.
    + rewrite Hb. cbn [trace]. by rewrite Hlog, Hq, app_nil_r.
    + by rewrite Hb in Ho.
Qed.

(** Where the first event that passes a test sits is determined. *)
Lemma first_split_unique (P : @event LoweredFunc TypeMap → bool) t1 x1 r1 t2 x2 r2 :
  t1 ++ x1 :: r1 = t2 ++ x2 :: r2 →
  count P t1 = 0 → count P t2 = 0 → P x1 = true → P x2 = true →
  t1 = t2 ∧ x1 = x2 ∧ r1 = r2.
Proof.
  revert t2. induction t1 as [| a t1 IH]; intros [| b t2]; cbn.
  - by intros [= -> ->].
  - intros [= <- _] _ Hc Hx _. rewrite Hx in Hc. lia.
  - intros [= -> _] Hc _ _ Hx. rewrite Hx in Hc. lia.
  - intros [= -> Ht] Hc1 Hc2 Hx1 Hx2.
    destruct (IH t2 Ht) as (-> & -> & ->); [lia | lia | done | done | done].
Qed.

(** X6. In any call, [cg.Finish()] is called only when the loop has run
    through: everything before it is the [n] full iterations, one per
    function of the array, and after it comes nothing (it threw) or the log
    statement alone (it returned). *)
Theorem generator_finished_after_all_functions funcs d pre r post :
  trace (BuildRV64PPAC funcs d) = pre ++ EvCgFinish r :: post →
  pre = iterations funcs (snapshots funcs ca_new) ∧
  length (snapshots funcs ca_new) = length funcs ∧
  out (BuildRV64PPAC funcs d) = r ∧
  post = (if is_returned r then [EvLogWarning warning] else []).
Proof.
  intros Ht.
  destruct (loop_quiet funcs (Frame ca_new cg_new d)) as (_ & Hq & _).
  pose proof (loop_returned funcs (Frame ca_new cg_new d)) as Hl. cbn zeta in Hl.
  assert (Hpre : ∀ (tail : list (@event LoweredFunc TypeMap)) x,
    trace (run (for_each funcs per_function) (Frame ca_new cg_new d))
      ++ EvCgFinish x :: tail = pre ++ EvCgFinish r :: post →
    count is_CgFinish tail = 0 →
    trace (run (for_each funcs per_function) (Frame ca_new cg_new d)) = pre ∧
    @EvCgFinish LoweredFunc TypeMap x = EvCgFinish r ∧ tail = post).
  { intros tail x Heq Htail. apply (first_split_unique is_CgFinish); try done.
    apply (f_equal (count is_CgFinish)) in Heq.
    rewrite !count_app in Heq. cbn in Heq. lia. }
  destruct (build_cases funcs d)
    as [(e & _ & Hb) | [(e & Ho & Hb) | (c & g & Ho & Hb)]];
    rewrite Hb in Ht |- *; cbn [trace out] in *.
  - apply (f_equal (count is_CgFinish)) in Ht.
    rewrite count_app in Ht. cbn in Ht. lia.
  - destruct (Hpre [] (Raised e) Ht eq_refl) as (<- & [= <-] & <-).
    destruct (Hl Ho) as (Hi & Hn & _). done.
  - destruct (Hpre [EvLogWarning warning] (Returned c) Ht eq_refl)
      as (<- & [= <-] & <-).
    destruct (Hl Ho) as (Hi & Hn & _). done.
Qed.

End MoreDriverFacts.

(** ** The registered entry point *)

Section RegistrationFacts.
Context {LoweredFunc TypeMap : Type}.
Context `{!CodeAnalysis LoweredFunc TypeMap, !CodeGenRV64PPAC LoweredFunc TypeMap}.
Context {TVMArgs TVMRetValue : Type}.
Context (arg_as_funcs : TVMArgs → nat → option (list LoweredFunc)).
Context (ret_string : string → TVMRetValue).

(** The diagnostic channel after a call of the driver. *)
Lemma build_diag (funcs : list LoweredFunc) (d : list string) :
  diag (final (BuildRV64PPAC funcs d)) =
  if is_returned (out (BuildRV64PPAC funcs d)) then d ++ [warning] else d.
Proof.
  pose proof (run_diag (for_each funcs per_function) (Frame ca_new cg_new d)) as Hd.
  destruct (loop_quiet funcs (Frame ca_new cg_new d)) as (Hq & _).
  rewrite Hq, app_nil_r in Hd. cbn in Hd.
  destruct (build_cases funcs d) as [(e & _ & ->) | [(e & _ & ->) | (c & g & _ & ->)]];
    cbn; by rewrite ?Hd.
Qed.

(** X7. A call of the registered body writes the return slot exactly when
    it returns, with the text the driver returned on [args[0]], and it is
    exactly then that the warning is logged; when the argument cannot be read
    or a collaborator throws, the slot and the diagnostic channel are left as
    they were, and in the first case no collaborator is called at all. *)
Theorem return_slot_written_iff_returned (args : TVMArgs) (rv : TVMRetValue)
    (d : list string) :
  let r := build_rv64_ppac arg_as_funcs ret_string args rv d in
  (api_out r = ApiReturned ↔ api_diag r = d ++ [warning]) ∧
  (api_out r = ApiReturned →
     ∃ funcs code, arg_as_funcs args 0 = Some funcs ∧
       out (BuildRV64PPAC funcs d) = Returned code ∧
       api_rv r = ret_string code) ∧
  (api_out r ≠ ApiReturned → api_rv r = rv ∧ api_diag r = d) ∧
  (api_out r = ApiBadArgument ↔ arg_as_funcs args 0 = None) ∧
  (api_out r = ApiBadArgument → api_trace r = []).
Proof.
  cbn zeta. unfold build_rv64_ppac.
  assert (Hne : d ≠ d ++ [warning]).
  { intros Heq. apply (f_equal length) in Heq. rewrite length_app in Heq.
    cbn in Heq. lia. }
  destruct (arg_as_funcs args 0) as [funcs |]; cbn zeta.
  - pose proof (build_diag funcs d) as Hd.
    destruct (out (BuildRV64PPAC funcs d)) as [code | e] eqn:Ho; cbn in *.
    + repeat split; try done. intros _. by exists funcs, code.
    + rewrite Hd. repeat split; solve [done | intros Heq; by destruct Hne].
  - cbn. repeat split; solve [done | intros Heq; by destruct Hne].
Qed.

End RegistrationFacts.

(** ** Further facts on the small compilation unit *)

Module UnitMoreFacts.
Import Unit.

(** X2 on the clashing functions followed by one more. *)
Lemma failure_cuts_off_later_functions_witness :
  out (build clashing []) = Raised (Failure InconsistentArgumentType "A") ∧
  count is_CgFinish (trace (build clashing [])) = 0 ∧
  build (clashing ++ [axpy]) [] = build clashing [].
Proof.
  assert (H1 : out (build clashing []) =
    Raised (Failure InconsistentArgumentType "A")) by (vm_compute; reflexivity).
  assert (H2 : count is_CgFinish (trace (build clashing [])) = 0)
    by (vm_compute; reflexivity).
  split; [exact H1 |]. split; [exact H2 |].
  exact (@failure_cuts_off_later_functions _ _ analyzer generator
    clashing [axpy] [] _ H1 H2).
Defined.

(** X5 on a function whose body has no translation. *)
Lemma failure_comes_from_last_operation_witness :
  out (build [fence] []) = Raised (Failure UnsupportedConstruct "Fence") ∧
  ∃ pre ev, trace (build [fence] []) = pre ++ [ev] ∧
    raised ev = Some (Failure UnsupportedConstruct "Fence").
Proof.
  assert (H : out (build [fence] []) =
    Raised (Failure UnsupportedConstruct "Fence")) by (vm_compute; reflexivity).
  split; [exact H |].
  destruct (@failure_comes_from_last_operation _ _ analyzer generator
    [fence] [] _ H) as (pre & ev & H1 & H2 & _).
  exists pre, ev. split; [exact H1 | exact H2].
Defined.

(** X6 on two agreeing functions. *)
Lemma generator_finished_after_all_functions_witness :
  trace (build agreeing []) =
    (iteration load map_A ++ iteration axpy map_AB) ++
    EvCgFinish
      (Returned "load(int32_t* A;){ld A}axpy(int32_t* A;float* B;){mac A B}")
    :: [EvLogWarning warning] ∧
  out (build agreeing []) =
    Returned "load(int32_t* A;){ld A}axpy(int32_t* A;float* B;){mac A B}".
Proof.
  assert (H : trace (build agreeing []) =
    (iteration load map_A ++ iteration axpy map_AB) ++
    EvCgFinish
      (Returned "load(int32_t* A;){ld A}axpy(int32_t* A;float* B;){mac A B}")
    :: [EvLogWarning warning]) by (vm_compute; reflexivity).
  split; [exact H |].
  destruct (@generator_finished_after_all_functions _ _ analyzer generator
    agreeing [] _ _ _ H) as (_ & _ & Ho & _).
  exact Ho.
Defined.

End UnitMoreFacts.
